(** * The nested-reply vote engine of the discussion board

    A shallow embedding of [forum-backend/routes/votes.js]: the two vote
    endpoints, the in-place vote ledger update they share, the recursive
    search of the reply tree, and the reputation derived from a thread's
    votes; with them the thread deletion route of [routes/threads.js] and
    the paging arithmetic of the list routes.  Identifiers (Mongo
    ObjectIds) are modelled by their [toString()]
    form, the two Mongo collections by finite maps keyed by identifier, and
    JavaScript numbers that count array elements by [Z].  The collaborators
    ([findById], [save], [findByIdAndUpdate]) are taken to succeed, so the
    [catch] branch that answers 500 is not part of the model. *)

From stdpp Require Import gmap strings list fin_maps.

Open Scope string_scope.
Open Scope list_scope.
Open Scope Z_scope.

(** ** Data model *)

(** A vote sub-document [{ user, type }].  [type] stays a string, as in the
    source, where it is compared with ['upvote'] and ['downvote']. *)
Record Vote := mkVote {
  vote_user : string;
  vote_type : string
}.

(** A reply sub-document; [reply_replies] is the array of nested replies. *)
#[local] Unset Elimination Schemes.
Inductive Reply := mkReply {
  reply_id : string;
  reply_author : string;
  reply_content : string;
  reply_votes : list Vote;
  reply_replies : list Reply
}.
#[local] Set Elimination Schemes.

(** Induction over replies: the property may be assumed of every nested
    reply. *)
Section Reply_induction.
Variable P : Reply → Prop.
Hypothesis step : ∀ id author content votes replies,
  Forall P replies → P (mkReply id author content votes replies).

Fixpoint Reply_ind (r : Reply) : P r :=
  match r with
  | mkReply id author content votes replies =>
      step id author content votes replies
        ((fix all (l : list Reply) : Forall P l :=
            match l with
            | [] => List.Forall_nil P
            | c :: cs => List.Forall_cons _ c cs (Reply_ind c) (all cs)
            end) replies)
  end.
End Reply_induction.

(** The fields of a thread document the vote routes read or write. *)
Record Thread := mkThread {
  thread_author : string;
  thread_title : string;
  thread_votes : list Vote;
  thread_replies : list Reply
}.

Record User := mkUser {
  username : string;
  reputation : Z
}.

(** The two collections [Thread] and [User]. *)
Record Db := mkDb {
  threads : gmap string Thread;
  users : gmap string User
}.

(** A request that passed [requireAuth]: [req.params],
    [req.user._id.toString()] and [req.body.type] when it is a JSON string
    ([None] when the body has no such field). *)
Record Request := mkRequest {
  params_threadId : string;
  params_replyId : string;
  req_user : string;
  body_type : option string
}.

(** A value of the [userVote] field: [undefined], [null] or a string. *)
Inductive JsType := JUndefined | JNull | JStr (s : string).

Inductive Body :=
| BErrors (errors : list string)
| BMessage (message : string)
| BVote (message : string) (voteCount : Z) (userVote : JsType).

Record Response := mkResponse {
  status : Z;
  body : Body
}.

(** ** Array primitives of the source *)

Section arrays.
Context {A : Type}.

(** [Array.prototype.findIndex], scanning from index [i]; [-1] when no
    element satisfies the predicate. *)
Fixpoint findIndex_from (p : A -> bool) (l : list A) (i : Z) : Z :=
  match l with
  | [] => -1
  | x :: xs => if p x then i else findIndex_from p xs (i + 1)
  end.

Definition findIndex (p : A -> bool) (l : list A) : Z := findIndex_from p l 0.

(** [l.splice(i, 1)] for an index inside the array. *)
Definition splice1 (i : Z) (l : list A) : list A :=
  take (Z.to_nat i) l ++ drop (S (Z.to_nat i)) l.
End arrays.

(** ** The vote ledger *)

Definition sameUser (userId : string) (vote : Vote) : bool :=
  String.eqb (vote_user vote) userId.

(** The block shared by both routes (votes.js lines 28-48 and 92-105): the
    array [votes] after the update for [userId] and [type].  The index that
    [findIndex] returns is inside the array, so the lookup [votes[index]]
    always succeeds; the [None] branch is there for totality only. *)
Definition applyVote (votes : list Vote) (userId type : string) : list Vote :=
  let existingVoteIndex := findIndex (sameUser userId) votes in
  if negb (Z.eqb existingVoteIndex (-1)) then
    match votes !! Z.to_nat existingVoteIndex with
    | Some existingVote =>
        if String.eqb (vote_type existingVote) type then
          splice1 existingVoteIndex votes
        else
          <[Z.to_nat existingVoteIndex := mkVote (vote_user existingVote) type]> votes
    | None => votes
    end
  else
    votes ++ [mkVote userId type].

(** [votes.filter(v => v.type === 'upvote').length -
     votes.filter(v => v.type === 'downvote').length] *)
Definition voteCount (votes : list Vote) : Z :=
  Z.of_nat (length (filter (λ v, vote_type v = "upvote") votes)) -
  Z.of_nat (length (filter (λ v, vote_type v = "downvote") votes)).

(** [votes.find(v => v.user.toString() === userId)?.type] *)
Definition userVoteOf (votes : list Vote) (userId : string) : JsType :=
  match List.find (sameUser userId) votes with
  | Some v => JStr (vote_type v)
  | None => JUndefined
  end.

(** [Math.max(0, voteCount * 10)] *)
Definition reputationOf (votes : list Vote) : Z :=
  Z.max 0 (voteCount votes * 10).

(** ** The reply tree *)

(** One iteration of the [for (let reply of replies)] loop of
    [findAndVoteReply] (votes.js lines 89-116) on the element [reply]: the
    flag tells whether the loop returns [true] at this element, the second
    component is the element after the in-place update.  The inner [loop] is
    the recursive call on [reply.replies]. *)
Fixpoint voteInReply (reply : Reply) (replyId userId voteType : string)
  : bool * Reply :=
  match reply with
  | mkReply id author content votes replies =>
      if String.eqb id replyId then
        (true, mkReply id author content (applyVote votes userId voteType) replies)
      else if (0 <? length replies)%nat then
        let '(found, replies') :=
          (fix loop (l : list Reply) : bool * list Reply :=
             match l with
             | [] => (false, [])
             | r :: rest =>
                 let '(hit, r') := voteInReply r replyId userId voteType in
                 if hit then (true, r' :: rest)
                 else let '(found, rest') := loop rest in (found, r' :: rest')
             end) replies in
        (found, mkReply id author content votes replies')
      else
        (false, reply)
  end.

(** [findAndVoteReply(replies, replyId, userId, voteType)]: the returned
    boolean and the array [replies] after the call. *)
Fixpoint findAndVoteReply (replies : list Reply) (replyId userId voteType : string)
  : bool * list Reply :=
  match replies with
  | [] => (false, [])
  | reply :: rest =>
      let '(hit, reply') := voteInReply reply replyId userId voteType in
      if hit then (true, reply' :: rest)
      else
        let '(found, rest') := findAndVoteReply rest replyId userId voteType in
        (found, reply' :: rest')
  end.

(** ** The two routes *)

(** express-validator's [isIn]: membership of the stringified field. *)
Definition isIn (value : string) (allowed : list string) : bool :=
  existsb (String.eqb value) allowed.

(** [validationResult(req)] for the chain
    [body('type').isIn(['upvote', 'downvote']).withMessage(...)]; an absent
    field is validated as the empty string. *)
Definition validationResult (req : Request) : list string :=
  if isIn (default "" (body_type req)) ["upvote"; "downvote"] then []
  else ["Vote type must be upvote or downvote"].

Definition isEmpty (errors : list string) : bool :=
  match errors with [] => true | _ => false end.

(** [thread.save()] *)
Definition saveThread (threadId : string) (thread : Thread) (db : Db) : Db :=
  mkDb (<[threadId := thread]> (threads db)) (users db).

(** [User.findByIdAndUpdate(id, { $set: { reputation } })] *)
Definition setReputation (id : string) (value : Z) (db : Db) : Db :=
  mkDb (threads db) (alter (λ u, mkUser (username u) value) id (users db)).

(** [router.post('/thread/:threadId', ...)], votes.js lines 9-68, for a
    request that passed [requireAuth]. *)
Definition voteThread (req : Request) (db : Db) : Db * Response :=
  let errors := validationResult req in
  if negb (isEmpty errors) then
    (db, mkResponse 400 (BErrors errors))
  else
    let type := default "" (body_type req) in
    match threads db !! params_threadId req with
    | None => (db, mkResponse 404 (BMessage "Thread not found"))
    | Some thread =>
        let existingVoteIndex :=
          findIndex (sameUser (req_user req)) (thread_votes thread) in
        let thread :=
          mkThread (thread_author thread) (thread_title thread)
                   (applyVote (thread_votes thread) (req_user req) type)
                   (thread_replies thread) in
        let db := saveThread (params_threadId req) thread db in
        let voteCount := voteCount (thread_votes thread) in
        let db := setReputation (thread_author thread) (Z.max 0 (voteCount * 10)) db in
        (db, mkResponse 200
               (BVote "Vote recorded successfully" voteCount
                  (if negb (Z.eqb existingVoteIndex (-1))
                   then userVoteOf (thread_votes thread) (req_user req)
                   else JNull)))
    end.

(** [router.post('/thread/:threadId/reply/:replyId', ...)], votes.js lines
    70-127, for a request that passed [requireAuth]. *)
Definition voteReply (req : Request) (db : Db) : Db * Response :=
  let errors := validationResult req in
  if negb (isEmpty errors) then
    (db, mkResponse 400 (BErrors errors))
  else
    let type := default "" (body_type req) in
    match threads db !! params_threadId req with
    | None => (db, mkResponse 404 (BMessage "Thread not found"))
    | Some thread =>
        let '(found, replies) :=
          findAndVoteReply (thread_replies thread) (params_replyId req)
                           (req_user req) type in
        if negb found then
          (db, mkResponse 404 (BMessage "Reply not found"))
        else
          let thread :=
            mkThread (thread_author thread) (thread_title thread)
                     (thread_votes thread) replies in
          let db := saveThread (params_threadId req) thread db in
          (db, mkResponse 200 (BMessage "Vote recorded successfully"))
    end.

(** ** Specification-level notions *)

(** The vote entries of [votes] mention [userId] nowhere. *)
Definition noEntry (userId : string) (votes : list Vote) : Prop :=
  Forall (λ v, vote_user v ≠ userId) votes.

(** The three cases of the vote ledger as the specification words them:
    insert when the user has no entry, remove the entry when it has the
    desired type, overwrite its type otherwise. *)
Inductive spec_applyVote (userId desiredType : string)
  : list Vote → list Vote → Prop :=
| spec_insert votes :
    noEntry userId votes →
    spec_applyVote userId desiredType votes (votes ++ [mkVote userId desiredType])
| spec_toggle_off before entry after :
    noEntry userId before → vote_user entry = userId →
    vote_type entry = desiredType →
    spec_applyVote userId desiredType (before ++ entry :: after) (before ++ after)
| spec_switch before entry after :
    noEntry userId before → vote_user entry = userId →
    vote_type entry ≠ desiredType →
    spec_applyVote userId desiredType (before ++ entry :: after)
      (before ++ mkVote (vote_user entry) desiredType :: after).

(** The vote-set invariant of the data model. *)
Definition oneVotePerUser (votes : list Vote) : Prop :=
  NoDup (vote_user <$> votes).

(** A node of the reply tree is addressed by the child indices leading to
    it: [i :: p] is the node at [p] below the [i]-th reply. *)
Definition path := list nat.

Fixpoint node_in (p : path) (r : Reply) : option Reply :=
  match p with
  | [] => Some r
  | i :: p' =>
      match reply_replies r !! i with
      | Some child => node_in p' child
      | None => None
      end
  end.

Definition node_at (replies : list Reply) (p : path) : option Reply :=
  match p with
  | [] => None
  | i :: p' =>
      match replies !! i with
      | Some r => node_in p' r
      | None => None
      end
  end.

(** Replace the vote set of the node at a path by its image under [f]. *)
Fixpoint update_in (f : list Vote → list Vote) (p : path) (r : Reply) : Reply :=
  match p with
  | [] =>
      mkReply (reply_id r) (reply_author r) (reply_content r)
              (f (reply_votes r)) (reply_replies r)
  | i :: p' =>
      mkReply (reply_id r) (reply_author r) (reply_content r) (reply_votes r)
              (alter (update_in f p') i (reply_replies r))
  end.

Definition update_at (f : list Vote → list Vote) (p : path) (replies : list Reply)
  : list Reply :=
  match p with
  | [] => replies
  | i :: p' => alter (update_in f p') i replies
  end.

(** Move a path one sibling to the right. *)
Definition next_sibling (p : path) : path :=
  match p with
  | [] => []
  | i :: p' => S i :: p'
  end.

(** Depth-first pre-order listing of a reply and its descendants, each with
    its path relative to the reply: the reply itself, then the listing of
    each child in order. *)
Fixpoint preorder (r : Reply) : list (path * Reply) :=
  match r with
  | mkReply _ _ _ _ replies =>
      ([], r) ::
      (fix children (l : list Reply) : list (path * Reply) :=
         match l with
         | [] => []
         | c :: cs =>
             (prod_map (cons 0%nat) id <$> preorder c) ++
             (prod_map next_sibling id <$> children cs)
         end) replies
  end.

(** Pre-order listing of a whole level: each reply, its descendants, then
    the next sibling. *)
Fixpoint preorder_list (replies : list Reply) : list (path * Reply) :=
  match replies with
  | [] => []
  | r :: rest =>
      (prod_map (cons 0%nat) id <$> preorder r) ++
      (prod_map next_sibling id <$> preorder_list rest)
  end.

Definition hasId (replyId : string) (node : path * Reply) : bool :=
  String.eqb (reply_id (snd node)) replyId.

(** The specification's [locate]: the first node in pre-order whose id is
    [replyId], or [None] (the NotFound outcome). *)
Definition spec_locate (replies : list Reply) (replyId : string) : option path :=
  fst <$> List.find (hasId replyId) (preorder_list replies).

(** What the search does to one reply, and to one level, phrased with the
    pre-order listing: the vote lands on the first listed node with the id. *)
Definition voteInReply_located (rid u t : string) (r : Reply) : Prop :=
  voteInReply r rid u t =
    match List.find (hasId rid) (preorder r) with
    | Some (p, _) => (true, update_in (λ votes, applyVote votes u t) p r)
    | None => (false, r)
    end.

Definition findAndVoteReply_located (rid u t : string) (replies : list Reply) : Prop :=
  findAndVoteReply replies rid u t =
    match List.find (hasId rid) (preorder_list replies) with
    | Some (p, _) => (true, update_at (λ votes, applyVote votes u t) p replies)
    | None => (false, replies)
    end.

(** The invariant on a whole reply tree, on a thread and on the thread
    collection: every vote set in it has at most one entry per user. *)
Definition tree_ok (replies : list Reply) : Prop :=
  ∀ p x, node_at replies p = Some x → oneVotePerUser (reply_votes x).

Definition thread_ok (thread : Thread) : Prop :=
  oneVotePerUser (thread_votes thread) ∧ tree_ok (thread_replies thread).

Definition db_ok (db : Db) : Prop :=
  ∀ tid thread, threads db !! tid = Some thread → thread_ok thread.

(** The vote set of the reply at path [p] of thread [threadId], if any. *)
Definition replyVotes (db : Db) (threadId : string) (p : path) : option (list Vote) :=
  match threads db !! threadId with
  | Some thread => reply_votes <$> node_at (thread_replies thread) p
  | None => None
  end.

(** The claim that a successful reply-level vote answers with a tally. *)
Definition reply_vote_returns_tally : Prop :=
  ∀ req db, status (snd (voteReply req db)) = 200 →
    ∃ message netScore userVote,
      body (snd (voteReply req db)) = BVote message netScore userVote.

(** ** Sample data

    A thread [T] by [author1] whose reply [A] has the children [B] and [C],
    [C] having the child [D]; and some requests on it. *)

Definition reply_D : Reply := mkReply "D" "u4" "fourth" [] [].
Definition reply_C : Reply := mkReply "C" "u3" "third" [] [reply_D].
Definition reply_B : Reply := mkReply "B" "u2" "second" [mkVote "u1" "downvote"] [].
Definition reply_A : Reply := mkReply "A" "u1" "first" [] [reply_B; reply_C].

Definition thread_T : Thread := mkThread "author1" "Welcome" [] [reply_A].

Definition sample_db : Db :=
  mkDb {[ "T" := thread_T ]} {[ "author1" := mkUser "alice" 0 ]}.

Definition upvote_T : Request := mkRequest "T" "" "u1" (Some "upvote").
Definition upvote_D : Request := mkRequest "T" "D" "u1" (Some "upvote").
Definition upvote_nowhere : Request := mkRequest "S" "D" "u1" (Some "upvote").
Definition upvote_missing : Request := mkRequest "T" "missing" "u1" (Some "upvote").

Definition three_up_one_down : list Vote :=
  [mkVote "u1" "upvote"; mkVote "u2" "upvote"; mkVote "u3" "downvote";
   mkVote "u4" "upvote"].

Definition five_down : list Vote :=
  [mkVote "u1" "downvote"; mkVote "u2" "downvote"; mkVote "u3" "downvote";
   mkVote "u4" "downvote"; mkVote "u5" "downvote"].

(** ** Requests in sequence *)

(** The router of votes.js dispatches a request to one of its two routes;
    requests are served one after the other. *)
Inductive VoteRequest :=
| ThreadVote (req : Request)
| ReplyVote (req : Request).

Definition handleVote (r : VoteRequest) (db : Db) : Db * Response :=
  match r with
  | ThreadVote req => voteThread req db
  | ReplyVote req => voteReply req db
  end.

Fixpoint handleVotes (rs : list VoteRequest) (db : Db) : Db :=
  match rs with
  | [] => db
  | r :: rest => handleVotes rest (handleVote r db).1
  end.

(** ** Deleting a thread *)

(** What the thread routes read of a request that passed [requireAuth]:
    [req.params.id], [req.user._id.toString()] and [req.user.role]. *)
Record ThreadRequest := mkThreadRequest {
  params_id : string;
  user_id : string;
  user_role : option string
}.

(** [router.delete('/:id', ...)], threads.js lines 210-226. *)
Definition deleteThread (req : ThreadRequest) (db : Db) : Db * Response :=
  match threads db !! params_id req with
  | None => (db, mkResponse 404 (BMessage "Thread not found"))
  | Some thread =>
      if negb (String.eqb (thread_author thread) (user_id req)) &&
         negb (bool_decide (user_role req = Some "admin"))
      then (db, mkResponse 403 (BMessage "Not authorized"))
      else
        (mkDb (delete (params_id req) (threads db)) (users db),
         mkResponse 200 (BMessage "Thread deleted successfully"))
  end.

(** ** Pagination of the list routes *)

(** [parseInt(param) || fallback], the result of [parseInt] being an
    integer or [NaN] ([None]): [NaN] and [0] are falsy. *)
Definition parseIntOr (parsed : option Z) (fallback : Z) : Z :=
  match parsed with
  | Some n => if n =? 0 then fallback else n
  | None => fallback
  end.

(** [Math.ceil(total / limit)] on a count and a non-zero limit, both far
    below 2^53, where the rounded quotient has the exact ceiling. *)
Definition ceilDiv (total limit : Z) : Z := - ((- total) / limit).

Record Pagination := mkPagination {
  pg_page : Z;
  pg_limit : Z;
  pg_total : Z;
  pg_pages : Z
}.

(** The paging shared by the list routes (threads.js lines 23-25 and 62-82,
    the category route lines 74-76 and 98-116, users.js lines 160-180):
    [found] is the sorted result of the query, of which [skip(skip)] and
    [limit(limit)] keep a slice, and [countDocuments] counts all of it (no
    write comes between the two queries). *)
Definition paginate {A} (page limit : option Z) (defaultLimit : Z) (found : list A)
  : list A * Pagination :=
  let page := parseIntOr page 1 in
  let limit := parseIntOr limit defaultLimit in
  let skip := (page - 1) * limit in
  let total := Z.of_nat (length found) in
  (take (Z.to_nat limit) (drop (Z.to_nat skip) found),
   mkPagination page limit total (ceilDiv total limit)).

(** ** Further specification-level notions *)

(** The contribution of one vote of type [t] to the net score. *)
Definition score (t : string) : Z :=
  if String.eqb t "upvote" then 1 else if String.eqb t "downvote" then -1 else 0.

(** What identifies a reply apart from its votes and sub-replies. *)
Definition reply_label (r : Reply) : string * string * string :=
  (reply_id r, reply_author r, reply_content r).

Definition replyLabel (db : Db) (threadId : string) (p : path)
  : option (string * string * string) :=
  match threads db !! threadId with
  | Some thread => reply_label <$> node_at (thread_replies thread) p
  | None => None
  end.



(** ** More sample data *)

Definition downvote_T : Request := mkRequest "T" "" "u1" (Some "downvote").
Definition downvote_B : Request := mkRequest "T" "B" "u1" (Some "downvote").

(** A second thread [S] of the same author, with two upvotes. *)
Definition thread_S : Thread :=
  mkThread "author1" "Second" [mkVote "u2" "upvote"; mkVote "u3" "upvote"] [].

Definition two_threads_db : Db :=
  mkDb (<[ "S" := thread_S ]> {[ "T" := thread_T ]})
       {[ "author1" := mkUser "alice" 20 ]}.

Definition upvote_S : Request := mkRequest "S" "" "u1" (Some "upvote").

Definition delete_T_by_author : ThreadRequest :=
  mkThreadRequest "T" "author1" (Some "user").
Definition delete_T_by_admin : ThreadRequest :=
  mkThreadRequest "T" "root" (Some "admin").
Definition delete_T_by_other : ThreadRequest :=
  mkThreadRequest "T" "u1" (Some "moderator").

(** ** Facts about the array primitives *)

Section array_facts.
Context {A : Type}.
Implicit Types (p : A -> bool) (l : list A).

Lemma findIndex_from_none p l i :
  0 <= i → (findIndex_from p l i = -1 ↔ Forall (λ x, p x = false) l).
Proof.
  revert i. induction l as [|x xs IH]; intros i Hi; simpl.
  - split; [constructor | done].
  - destruct (p x) eqn:E.
    + split; [lia | inversion 1; congruence].
    + rewrite IH by lia. split; [by constructor | by inversion 1].
Qed.

Lemma findIndex_none p l :
  findIndex p l = -1 ↔ Forall (λ x, p x = false) l.
Proof. by apply findIndex_from_none. Qed.

(** A hit of [findIndex] splits the array at the first match. *)
Lemma findIndex_from_some p l i :
  0 <= i → findIndex_from p l i ≠ -1 →
  ∃ l1 x l2, l = l1 ++ x :: l2 ∧ Forall (λ y, p y = false) l1 ∧ p x = true ∧
             findIndex_from p l i = i + Z.of_nat (length l1).
Proof.
  revert i. induction l as [|x xs IH]; intros i Hi Hne; simpl in *; [done|].
  destruct (p x) eqn:E.
  - exists [], x, xs. simpl. repeat split; [constructor | done | lia].
  - destruct (IH (i + 1)) as (l1 & y & l2 & -> & Hl1 & Hy & Hidx); [lia | done |].
    exists (x :: l1), y, l2. simpl. repeat split; [by constructor | done | lia].
Qed.

Lemma findIndex_from_first p l1 x l2 i :
  Forall (λ y, p y = false) l1 → p x = true →
  findIndex_from p (l1 ++ x :: l2) i = i + Z.of_nat (length l1).
Proof.
  intros Hl1 Hx. revert i.
  induction Hl1 as [|y l1 Hy _ IH]; intros i; simpl.
  - rewrite Hx. lia.
  - rewrite Hy, IH. lia.
Qed.

Lemma findIndex_first p l1 x l2 :
  Forall (λ y, p y = false) l1 → p x = true →
  findIndex p (l1 ++ x :: l2) = Z.of_nat (length l1).
Proof.
  intros Hl1 Hx. unfold findIndex.
  by rewrite findIndex_from_first.
Qed.

Lemma splice1_middle l1 x l2 :
  splice1 (Z.of_nat (length l1)) (l1 ++ x :: l2) = l1 ++ l2.
Proof.
  unfold splice1. rewrite Nat2Z.id, take_app_length.
  replace (S (length l1)) with (length l1 + 1)%nat by lia.
  by rewrite <- drop_drop, drop_app_length.
Qed.
End array_facts.

(** ** Facts about the vote ledger *)

Lemma sameUser_true u v : sameUser u v = true ↔ vote_user v = u.
Proof. unfold sameUser. apply String.eqb_eq. Qed.

Lemma sameUser_false u v : sameUser u v = false ↔ vote_user v ≠ u.
Proof. unfold sameUser. apply String.eqb_neq. Qed.

Lemma noEntry_sameUser u votes :
  noEntry u votes ↔ Forall (λ v, sameUser u v = false) votes.
Proof.
  unfold noEntry. apply Forall_proper; [|done].
  intros v. by rewrite sameUser_false.
Qed.

Lemma noEntry_findIndex u votes :
  noEntry u votes ↔ findIndex (sameUser u) votes = -1.
Proof. by rewrite findIndex_none, noEntry_sameUser. Qed.

(** Either the user has no entry, or the array splits at the user's first
    entry. *)
Lemma votes_split u votes :
  noEntry u votes ∨
  ∃ before entry after,
    votes = before ++ entry :: after ∧ noEntry u before ∧ vote_user entry = u.
Proof.
  destruct (decide (findIndex (sameUser u) votes = -1)) as [E|E].
  - left. by apply noEntry_findIndex.
  - right. apply findIndex_from_some in E as (l1 & x & l2 & -> & H1 & Hx & _); [|done].
    exists l1, x, l2. by rewrite noEntry_sameUser, <- sameUser_true.
Qed.

Lemma applyVote_absent votes u t :
  noEntry u votes → applyVote votes u t = votes ++ [mkVote u t].
Proof.
  intros H. unfold applyVote.
  apply noEntry_findIndex in H. by rewrite H.
Qed.

Lemma applyVote_present before entry after u t :
  noEntry u before → vote_user entry = u →
  applyVote (before ++ entry :: after) u t =
    if String.eqb (vote_type entry) t then before ++ after
    else before ++ mkVote (vote_user entry) t :: after.
Proof.
  intros Hb He. unfold applyVote.
  rewrite findIndex_first; [| by apply noEntry_sameUser | by apply sameUser_true].
  destruct (Z.eqb_spec (Z.of_nat (length before)) (-1)) as [E|_]; [lia|].
  simpl. rewrite Nat2Z.id, list_lookup_middle by done.
  destruct (String.eqb (vote_type entry) t).
  - apply splice1_middle.
  - by rewrite insert_app_r_alt, Nat.sub_diag by lia.
Qed.

Lemma spec_applyVote_total votes u t : spec_applyVote u t votes (applyVote votes u t).
Proof.
  destruct (votes_split u votes) as [H|(before & entry & after & -> & Hb & He)].
  - rewrite applyVote_absent by done. by constructor.
  - rewrite applyVote_present by done.
    destruct (String.eqb_spec (vote_type entry) t); by constructor.
Qed.

Lemma spec_applyVote_functional votes votes' u t :
  spec_applyVote u t votes votes' → votes' = applyVote votes u t.
Proof.
  destruct 1 as [votes H | before entry after Hb He Ht | before entry after Hb He Ht].
  - by rewrite applyVote_absent.
  - rewrite applyVote_present by done.
    by apply String.eqb_eq in Ht as ->.
  - rewrite applyVote_present by done.
    by apply String.eqb_neq in Ht as ->.
Qed.

(** ** The vote-set invariant and the net score *)

Lemma noEntry_not_elem u votes :
  noEntry u votes ↔ u ∉ vote_user <$> votes.
Proof.
  unfold noEntry. rewrite Forall_forall, list_elem_of_fmap. split.
  - intros H (v & -> & Hv). by apply (H v).
  - intros H v Hv E. apply H. by exists v.
Qed.

Lemma oneVotePerUser_applyVote votes u t :
  oneVotePerUser votes → oneVotePerUser (applyVote votes u t).
Proof.
  unfold oneVotePerUser. intros Hnd.
  destruct (votes_split u votes) as [H|(before & entry & after & -> & Hb & He)].
  - rewrite applyVote_absent, fmap_app by done. simpl.
    apply NoDup_app. split_and!; [done | | apply NoDup_singleton].
    intros x Hx ->%list_elem_of_singleton. by apply noEntry_not_elem in H.
  - rewrite applyVote_present by done.
    rewrite fmap_app, fmap_cons in Hnd.
    destruct (String.eqb (vote_type entry) t).
    + rewrite fmap_app. apply NoDup_app in Hnd as (H1 & H2 & H3).
      apply NoDup_cons in H3 as [_ H3].
      apply NoDup_app. split_and!; [done | | done].
      intros x Hx Hx'. apply (H2 x Hx). by right.
    + by rewrite fmap_app, fmap_cons.
Qed.

(** ** Facts about the reply tree *)

Lemma voteInReply_unfold id author content votes replies rid u t :
  voteInReply (mkReply id author content votes replies) rid u t =
    if String.eqb id rid then
      (true, mkReply id author content (applyVote votes u t) replies)
    else if (0 <? length replies)%nat then
      let '(found, replies') := findAndVoteReply replies rid u t in
      (found, mkReply id author content votes replies')
    else (false, mkReply id author content votes replies).
Proof.
  simpl. destruct (String.eqb id rid); [done|].
  destruct (0 <? length replies)%nat; [|done].
  match goal with
  | |- (let '(_, _) := ?loop replies in _) = _ =>
      assert (∀ l, loop l = findAndVoteReply l rid u t) as ->; [|done]
  end.
  induction l as [|r rest IH]; [done|].
  simpl. destruct (voteInReply r rid u t) as [[] r']; [done|].
  by rewrite IH.
Qed.

Lemma preorder_unfold r :
  preorder r = ([], r) :: preorder_list (reply_replies r).
Proof.
  by destruct r.
Qed.

Lemma find_app {A} (p : A → bool) (l1 l2 : list A) :
  List.find p (l1 ++ l2) =
    match List.find p l1 with
    | Some x => Some x
    | None => List.find p l2
    end.
Proof.
  induction l1 as [|x l1 IH]; [done|]. simpl. by destruct (p x).
Qed.

Lemma find_hasId_fmap rid (g : path → path) (l : list (path * Reply)) :
  List.find (hasId rid) (prod_map g id <$> l) =
    prod_map g id <$> List.find (hasId rid) l.
Proof.
  induction l as [|[p x] l IH]; [done|].
  simpl. unfold hasId at 1 3. simpl. by destruct (String.eqb _ _).
Qed.

(** No node of a level has the empty path. *)
Lemma preorder_list_path replies p x :
  (p, x) ∈ preorder_list replies → p ≠ [].
Proof.
  revert p. induction replies as [|r rest IH]; intros p; simpl.
  - by intros ?%elem_of_nil.
  - rewrite elem_of_app, !list_elem_of_fmap.
    intros [([q y] & [= -> ->] & _) | ([q y] & [= -> ->] & Hq)]; [done|].
    apply IH in Hq. by destruct q.
Qed.

Lemma update_at_next_sibling f p r rest :
  update_at f (next_sibling p) (r :: rest) = r :: update_at f p rest.
Proof. by destruct p. Qed.

Lemma find_elem_of {A} (p : A → bool) (l : list A) x :
  List.find p l = Some x → x ∈ l ∧ p x = true.
Proof.
  intros H. apply List.find_some in H as [H ?]. by rewrite list_elem_of_In.
Qed.

Section vote_located.
Variables rid u t : string.

Lemma level_located replies :
  Forall (voteInReply_located rid u t) replies →
  findAndVoteReply_located rid u t replies.
Proof.
  unfold findAndVoteReply_located.
  induction 1 as [|r rest Hr _ IH]; [done|].
  simpl. rewrite Hr, find_app, !find_hasId_fmap.
  destruct (List.find (hasId rid) (preorder r)) as [[p x]|]; simpl; [done|].
  rewrite IH.
  destruct (List.find (hasId rid) (preorder_list rest)) as [[p x]|]; simpl; [|done].
  by rewrite update_at_next_sibling.
Qed.

Lemma reply_located r : voteInReply_located rid u t r.
Proof.
  induction r as [id author content votes replies IH] using Reply_ind.
  apply level_located in IH. unfold voteInReply_located.
  rewrite voteInReply_unfold, preorder_unfold. simpl.
  unfold hasId at 1. simpl.
  destruct (String.eqb id rid); [done|].
  destruct replies as [|c cs]; [done|].
  replace (0 <? length (c :: cs))%nat with true by done.
  rewrite IH.
  destruct (List.find _ _) as [[p x]|] eqn:E; [|done].
  apply find_elem_of in E as [E _]. apply preorder_list_path in E.
  by destruct p.
Qed.

Lemma findAndVoteReply_find replies : findAndVoteReply_located rid u t replies.
Proof. apply level_located, Forall_forall. intros r _. apply reply_located. Qed.
End vote_located.

(** The pre-order listing enumerates exactly the nodes of the tree, each
    with the path that leads to it. *)
Lemma level_nodes replies :
  Forall (λ r, ∀ p x, (p, x) ∈ preorder r ↔ node_in p r = Some x) replies →
  ∀ p x, (p, x) ∈ preorder_list replies ↔ node_at replies p = Some x.
Proof.
  induction 1 as [|r rest Hr _ IH]; intros p x.
  - simpl. split; [by intros ?%elem_of_nil|]. by destruct p.
  - simpl. rewrite elem_of_app, !list_elem_of_fmap. split.
    + intros [([q y] & [= -> ->] & Hq) | ([q y] & [= -> ->] & Hq)].
      * by apply Hr.
      * apply IH in Hq. by destruct q.
    + destruct p as [|[|i] q]; simpl; [done | |].
      * intros Hq. left. exists (q, x). split; [done|]. by apply Hr.
      * intros Hq. right. exists (i :: q, x). split; [done|]. by apply IH.
Qed.

Lemma preorder_node_in r p x : (p, x) ∈ preorder r ↔ node_in p r = Some x.
Proof.
  revert p x. induction r as [id author content votes replies IH] using Reply_ind.
  intros p x. pose proof (level_nodes _ IH) as IHl. clear IH. rename IHl into IH.
  rewrite preorder_unfold, elem_of_cons. simpl. split.
  - intros [[= -> ->] | Hp]; [done|].
    assert (p ≠ []) by by eapply preorder_list_path.
    apply IH in Hp. by destruct p.
  - destruct p as [|i q]; [intros [= <-]; by left|].
    intros Hq. right. by apply IH.
Qed.

Lemma preorder_list_node_at replies p x :
  (p, x) ∈ preorder_list replies ↔ node_at replies p = Some x.
Proof.
  apply level_nodes, Forall_forall. intros r _ q y. apply preorder_node_in.
Qed.

Lemma find_none_Forall {A} (p : A → bool) (l : list A) :
  List.find p l = None ↔ Forall (λ x, p x = false) l.
Proof.
  induction l as [|x l IH]; simpl; [by split; [constructor|]|].
  destruct (p x) eqn:E.
  - split; [done | inversion 1; congruence].
  - rewrite IH. split; [by constructor | by inversion 1].
Qed.

(** [spec_locate] answers NotFound exactly when no node carries the id. *)
Lemma spec_locate_None replies rid :
  spec_locate replies rid = None ↔
  ∀ p x, node_at replies p = Some x → reply_id x ≠ rid.
Proof.
  unfold spec_locate. rewrite fmap_None, find_none_Forall, Forall_forall. split.
  - intros H p x Hx. apply (proj2 (preorder_list_node_at _ _ _)) in Hx.
    apply H in Hx. by apply String.eqb_neq in Hx.
  - intros H [p x] Hx. apply (proj1 (preorder_list_node_at _ _ _)) in Hx.
    by apply String.eqb_neq, (H p).
Qed.

(** [spec_locate] answers with the first match of the pre-order listing. *)
Lemma spec_locate_Some replies rid p :
  spec_locate replies rid = Some p →
  ∃ earlier x later,
    preorder_list replies = earlier ++ (p, x) :: later ∧
    reply_id x = rid ∧ Forall (λ n, reply_id n.2 ≠ rid) earlier.
Proof.
  unfold spec_locate. generalize (preorder_list replies). intros l.
  induction l as [|[q y] l IH]; simpl; [done|].
  unfold hasId at 1. simpl. destruct (String.eqb_spec (reply_id y) rid) as [E|E]; simpl.
  - intros [= ->]. exists [], y, l. by repeat split.
  - intros (earlier & x & later & -> & Hx & He)%IH.
    exists ((q, y) :: earlier), x, later. repeat split; [done|]. by constructor.
Qed.

(** Updating the vote set at one path leaves the vote set at every other
    path as it was. *)
Lemma node_in_update_in f p q r :
  reply_votes <$> node_in q (update_in f p r) =
    (if decide (q = p) then f else id) <$> (reply_votes <$> node_in q r).
Proof.
  revert q r. induction p as [|j p IH]; intros q r.
  - destruct q as [|i q]; simpl; [done|].
    destruct (reply_replies r !! i); simpl; by rewrite ?option_fmap_id.
  - destruct q as [|i q]; simpl; [done|].
    destruct (decide (i = j)) as [->|Hij].
    + rewrite list_lookup_alter_eq.
      destruct (reply_replies r !! j) as [c|]; simpl; [|done].
      rewrite IH.
      repeat case_decide; simplify_eq; done.
    + rewrite list_lookup_alter_ne by done.
      rewrite decide_False by congruence. by rewrite option_fmap_id.
Qed.

Lemma node_at_update_at f p q replies :
  reply_votes <$> node_at (update_at f p replies) q =
    (if decide (q = p) then f else id) <$> (reply_votes <$> node_at replies q).
Proof.
  destruct p as [|j p].
  { destruct q; simpl; [done|]. by rewrite option_fmap_id. }
  destruct q as [|i q]; simpl; [done|].
  destruct (decide (i = j)) as [->|Hij].
  - rewrite list_lookup_alter_eq.
    destruct (replies !! j) as [c|]; simpl; [|done].
    rewrite node_in_update_in.
    repeat case_decide; simplify_eq; done.
  - rewrite list_lookup_alter_ne by done.
    rewrite decide_False by congruence. by rewrite option_fmap_id.
Qed.

(** ** The routes in terms of the specification-level notions *)

Lemma findAndVoteReply_locate replies rid u t :
  findAndVoteReply replies rid u t =
    match spec_locate replies rid with
    | Some p => (true, update_at (λ votes, applyVote votes u t) p replies)
    | None => (false, replies)
    end.
Proof.
  rewrite findAndVoteReply_find. unfold spec_locate.
  by destruct (List.find _ _) as [[p x]|].
Qed.

Lemma voteReply_locate req db :
  voteReply req db =
    if negb (isEmpty (validationResult req)) then
      (db, mkResponse 400 (BErrors (validationResult req)))
    else
      match threads db !! params_threadId req with
      | None => (db, mkResponse 404 (BMessage "Thread not found"))
      | Some thread =>
          match spec_locate (thread_replies thread) (params_replyId req) with
          | None => (db, mkResponse 404 (BMessage "Reply not found"))
          | Some p =>
              (saveThread (params_threadId req)
                 (mkThread (thread_author thread) (thread_title thread)
                    (thread_votes thread)
                    (update_at
                       (λ votes, applyVote votes (req_user req)
                                   (default "" (body_type req)))
                       p (thread_replies thread)))
                 db,
               mkResponse 200 (BMessage "Vote recorded successfully"))
          end
      end.
Proof.
  unfold voteReply. destruct (negb _); [done|].
  destruct (threads db !! params_threadId req) as [thread|]; [|done].
  rewrite findAndVoteReply_locate. by destruct (spec_locate _ _).
Qed.

Lemma validationResult_ok req type :
  body_type req = Some type → isIn type ["upvote"; "downvote"] = true →
  validationResult req = [].
Proof. unfold validationResult. intros -> H. simpl default. by rewrite H. Qed.


Lemma voteThread_found req db thread type :
  body_type req = Some type → isIn type ["upvote"; "downvote"] = true →
  threads db !! params_threadId req = Some thread →
  voteThread req db =
    let votes := applyVote (thread_votes thread) (req_user req) type in
    (setReputation (thread_author thread) (Z.max 0 (voteCount votes * 10))
       (saveThread (params_threadId req)
          (mkThread (thread_author thread) (thread_title thread) votes
             (thread_replies thread)) db),
     mkResponse 200
       (BVote "Vote recorded successfully" (voteCount votes)
          (if negb (findIndex (sameUser (req_user req)) (thread_votes thread) =? -1)
           then userVoteOf votes (req_user req) else JNull))).
Proof.
  intros Htype Hin Hthread. unfold voteThread.
  rewrite (validationResult_ok req type), Hthread, Htype by done. done.
Qed.

Lemma applyVote_twice votes u t :
  noEntry u votes →
  applyVote votes u t = votes ++ [mkVote u t] ∧
  applyVote (applyVote votes u t) u t = votes.
Proof.
  intros H. rewrite applyVote_absent by done. split; [done|].
  rewrite (applyVote_present votes (mkVote u t) []) by done.
  simpl. by rewrite String.eqb_refl, app_nil_r.
Qed.

(** ** The invariant along both routes *)

Lemma tree_ok_update_at replies p u t :
  tree_ok replies → tree_ok (update_at (λ votes, applyVote votes u t) p replies).
Proof.
  intros Hok q x' Hq.
  pose proof (node_at_update_at (λ votes, applyVote votes u t) p q replies) as E.
  rewrite Hq in E. simpl in E.
  destruct (node_at replies q) as [x|] eqn:Hx; [|done].
  simpl in E. injection E as ->. apply Hok in Hx.
  case_decide; [by apply oneVotePerUser_applyVote | done].
Qed.

Lemma findAndVoteReply_keeps_invariant replies rid u t :
  tree_ok replies → tree_ok (findAndVoteReply replies rid u t).2.
Proof.
  intros Hok. rewrite findAndVoteReply_locate.
  destruct (spec_locate replies rid); [|done]. by apply tree_ok_update_at.
Qed.

Lemma voteReply_keeps_invariant req db :
  db_ok db → db_ok (voteReply req db).1.
Proof.
  intros Hok. rewrite voteReply_locate.
  destruct (negb _); [done|].
  destruct (threads db !! params_threadId req) as [thread|] eqn:Hthread; [|done].
  destruct (spec_locate _ _) as [p|]; [|done].
  intros tid thread'. simpl.
  destruct (decide (tid = params_threadId req)) as [->|Hne].
  - rewrite lookup_insert_eq. intros [= <-].
    destruct (Hok _ _ Hthread) as [Hv Ht].
    split; [done | by apply tree_ok_update_at].
  - rewrite lookup_insert_ne by done. apply Hok.
Qed.

Lemma voteThread_keeps_invariant req db :
  db_ok db → db_ok (voteThread req db).1.
Proof.
  intros Hok. unfold voteThread.
  destruct (negb _); [done|].
  destruct (threads db !! params_threadId req) as [thread|] eqn:Hthread; [|done].
  intros tid thread'. simpl.
  destruct (decide (tid = params_threadId req)) as [->|Hne].
  - rewrite lookup_insert_eq. intros [= <-].
    destruct (Hok _ _ Hthread) as [Hv Ht].
    split; [by apply oneVotePerUser_applyVote | done].
  - rewrite lookup_insert_ne by done. apply Hok.
Qed.

(** ** The vote ledger: cases, invariant, round trip *)

(** C1. The update of a vote set follows the three cases of the
    specification and nothing else: the array after the update is related to
    the array before it by exactly one of insert (the user has no entry),
    toggle off (the user's entry has the desired type) and switch (it has
    another type), whatever the vote set, the user and the type are. *)
Theorem applyVote_three_cases (votes votes' : list Vote) (u t : string) :
  spec_applyVote u t votes votes' ↔ votes' = applyVote votes u t.
Proof.
  split.
  - apply spec_applyVote_functional.
  - intros ->. apply spec_applyVote_total.
Qed.

(** C4. A vote set with at most one entry per user still has at most one
    entry per user after a vote by any user, of any type; the update is the
    one both routes perform, on a thread's and on a reply's vote set. *)
Theorem vote_keeps_one_vote_per_user (votes : list Vote) (u t : string) :
  oneVotePerUser votes → oneVotePerUser (applyVote votes u t).
Proof. apply oneVotePerUser_applyVote. Qed.

Lemma vote_keeps_one_vote_per_user_witness :
  oneVotePerUser three_up_one_down ∧
  oneVotePerUser (applyVote three_up_one_down "u3" "upvote").
Proof.
  assert (oneVotePerUser three_up_one_down) as H
    by (unfold oneVotePerUser; apply (bool_decide_unpack _); vm_compute; exact I).
  split; [exact H | exact (vote_keeps_one_vote_per_user _ "u3" "upvote" H)].
Defined.

(** C8. When the user has no entry, voting and then voting again with the
    same type gives back the original vote set, in which the user has no
    vote, and the net score is what it was. *)
Theorem toggle_round_trip (votes : list Vote) (u t : string) :
  noEntry u votes →
  let once := applyVote votes u t in
  let twice := applyVote once u t in
  once = votes ++ [mkVote u t] ∧
  twice = votes ∧ noEntry u twice ∧ voteCount twice = voteCount votes.
Proof.
  intros H. simpl.
  destruct (applyVote_twice votes u t H) as [Honce Htwice].
  by rewrite Htwice, Honce.
Qed.

Lemma toggle_round_trip_witness :
  applyVote (applyVote three_up_one_down "u9" "upvote") "u9" "upvote"
    = three_up_one_down ∧
  voteCount (applyVote (applyVote three_up_one_down "u9" "upvote") "u9" "upvote")
    = voteCount three_up_one_down.
Proof.
  assert (noEntry "u9" three_up_one_down) as H
    by (unfold noEntry; apply (bool_decide_unpack _); vm_compute; exact I).
  pose proof (toggle_round_trip three_up_one_down "u9" "upvote" H) as (_ & E & _ & N).
  split; [exact E | exact N].
Defined.

(** Along the thread route: two equal votes in a row of a user without
    entry restore the thread collection, and the second answer has the old
    net score and no [userVote] field ([undefined]). *)
Lemma voteThread_twice req db thread type :
  body_type req = Some type → isIn type ["upvote"; "downvote"] = true →
  threads db !! params_threadId req = Some thread →
  noEntry (req_user req) (thread_votes thread) →
  let db1 := (voteThread req db).1 in
  threads (voteThread req db1).1 = threads db ∧
  (voteThread req db1).2 =
    mkResponse 200
      (BVote "Vote recorded successfully" (voteCount (thread_votes thread)) JUndefined).
Proof.
  intros Htype Hin Hthread Hnone. simpl.
  destruct (applyVote_twice _ _ type Hnone) as (Honce & Htwice).
  rewrite (voteThread_found req db thread type) by done. simpl.
  erewrite (voteThread_found _ _ _ type); [|done..|by apply lookup_insert_eq].
  simpl. rewrite Htwice. split.
  - rewrite insert_insert_eq. apply insert_id. by destruct thread.
  - rewrite Honce, findIndex_first;
      [| by apply noEntry_sameUser | by apply sameUser_true].
    destruct (Z.eqb_spec (Z.of_nat (length (thread_votes thread))) (-1)); [lia|].
    simpl. unfold userVoteOf.
    replace (List.find _ _) with (@None Vote); [done|].
    symmetry. by apply find_none_Forall, noEntry_sameUser.
Qed.

(** ** Thread-level votes *)

(** The tally in the answer of a thread-level vote is the net score of the
    vote set that was persisted. *)
Lemma voteThread_tally req db thread type :
  body_type req = Some type → isIn type ["upvote"; "downvote"] = true →
  threads db !! params_threadId req = Some thread →
  ∃ thread' userVote,
    threads (voteThread req db).1 !! params_threadId req = Some thread' ∧
    (voteThread req db).2 =
      mkResponse 200
        (BVote "Vote recorded successfully" (voteCount (thread_votes thread')) userVote).
Proof.
  intros Htype Hin Hthread.
  rewrite (voteThread_found req db thread type) by done. simpl.
  eexists _, _. split; [apply lookup_insert_eq | done].
Qed.

(** A first vote is answered with [userVote: null]. *)
Lemma voteThread_first_vote req db thread type :
  body_type req = Some type → isIn type ["upvote"; "downvote"] = true →
  threads db !! params_threadId req = Some thread →
  noEntry (req_user req) (thread_votes thread) →
  (voteThread req db).2 =
    mkResponse 200
      (BVote "Vote recorded successfully"
         (voteCount (thread_votes thread ++ [mkVote (req_user req) type])) JNull).
Proof.
  intros Htype Hin Hthread Hnone.
  rewrite (voteThread_found req db thread type) by done. simpl.
  rewrite applyVote_absent by done.
  apply noEntry_findIndex in Hnone. by rewrite Hnone.
Qed.

(** C2. On the thread [T] without votes, the first upvote of [u1] is
    answered with the net score 1 and with [userVote] equal to [null], not
    to the vote type just recorded. *)
Theorem first_upvote_answer :
  (voteThread upvote_T sample_db).2 =
    mkResponse 200 (BVote "Vote recorded successfully" 1 JNull) ∧
  thread_votes <$> threads (voteThread upvote_T sample_db).1 !! "T" =
    Some [mkVote "u1" "upvote"].
Proof. split; vm_compute; reflexivity. Qed.

(** C3. A thread-level vote that finds its thread persists the updated vote
    set and overwrites the stored reputation of the thread's author with
    max(0, (upvotes - downvotes) * 10), counted on the updated vote set;
    no other user record changes. *)
Theorem thread_vote_recomputes_reputation req db thread type :
  body_type req = Some type → isIn type ["upvote"; "downvote"] = true →
  threads db !! params_threadId req = Some thread →
  let votes' := applyVote (thread_votes thread) (req_user req) type in
  let upvotes := Z.of_nat (length (filter (λ v, vote_type v = "upvote") votes')) in
  let downvotes := Z.of_nat (length (filter (λ v, vote_type v = "downvote") votes')) in
  let db' := (voteThread req db).1 in
  thread_votes <$> threads db' !! params_threadId req = Some votes' ∧
  users db' =
    alter (λ u, mkUser (username u) (Z.max 0 ((upvotes - downvotes) * 10)))
          (thread_author thread) (users db).
Proof.
  intros Htype Hin Hthread.
  rewrite (voteThread_found req db thread type) by done. simpl.
  split; [by rewrite lookup_insert_eq | done].
Qed.

Lemma thread_vote_recomputes_reputation_witness :
  reputation <$> users (voteThread upvote_T sample_db).1 !! "author1" = Some 10.
Proof.
  pose proof (thread_vote_recomputes_reputation upvote_T sample_db thread_T "upvote"
                eq_refl eq_refl eq_refl) as [_ E].
  rewrite E. vm_compute. reflexivity.
Defined.

Example reputation_three_up_one_down :
  voteCount three_up_one_down = 2 ∧ reputationOf three_up_one_down = 20.
Proof. split; vm_compute; reflexivity. Qed.

Example reputation_five_down :
  voteCount five_down = -5 ∧ reputationOf five_down = 0.
Proof. split; vm_compute; reflexivity. Qed.

(** ** Reply-level votes *)

(** C6. The search for a reply is a depth-first pre-order search: the call
    returns [true] and applies the vote at the first node of the pre-order
    listing whose id is the requested one, and returns [false] with the tree
    untouched when the listing has no such node; the route answers the
    latter with 404 "Reply not found", and persists the thread with the
    updated node otherwise. *)
Theorem findAndVoteReply_preorder :
  (∀ replies rid u t,
     findAndVoteReply replies rid u t =
       match List.find (hasId rid) (preorder_list replies) with
       | Some (p, _) => (true, update_at (λ votes, applyVote votes u t) p replies)
       | None => (false, replies)
       end) ∧
  (∀ req db,
     voteReply req db =
       if negb (isEmpty (validationResult req)) then
         (db, mkResponse 400 (BErrors (validationResult req)))
       else
         match threads db !! params_threadId req with
         | None => (db, mkResponse 404 (BMessage "Thread not found"))
         | Some thread =>
             match List.find (hasId (params_replyId req))
                             (preorder_list (thread_replies thread)) with
             | None => (db, mkResponse 404 (BMessage "Reply not found"))
             | Some (p, _) =>
                 (saveThread (params_threadId req)
                    (mkThread (thread_author thread) (thread_title thread)
                       (thread_votes thread)
                       (update_at
                          (λ votes, applyVote votes (req_user req)
                                      (default "" (body_type req)))
                          p (thread_replies thread)))
                    db,
                  mkResponse 200 (BMessage "Vote recorded successfully"))
             end
         end).
Proof.
  split.
  - intros. apply findAndVoteReply_find.
  - intros. rewrite voteReply_locate.
    destruct (negb _); [done|].
    destruct (threads db !! params_threadId req) as [thread|]; [|done].
    unfold spec_locate. by destruct (List.find _ _) as [[p x]|].
Qed.

(** The shape of the example tree and the search in it. *)
Example preorder_sample :
  (λ n, (n.1, reply_id n.2)) <$> preorder_list [reply_A] =
    [([0], "A"); ([0; 0], "B"); ([0; 1], "C"); ([0; 1; 0], "D")]%nat.
Proof. reflexivity. Qed.

Example locate_D : spec_locate [reply_A] "D" = Some [0; 1; 0]%nat.
Proof. reflexivity. Qed.

Example locate_missing : spec_locate [reply_A] "missing" = None.
Proof. reflexivity. Qed.

(** C5. A reply-level vote leaves the user records (hence every
    reputation) and the vote set of every thread as they were, and leaves
    the vote set of every reply as it was, except for the reply it located
    in the requested thread. *)
Theorem reply_vote_frame req db :
  let db' := (voteReply req db).1 in
  users db' = users db ∧
  (∀ tid, thread_votes <$> threads db' !! tid = thread_votes <$> threads db !! tid) ∧
  (∀ tid p,
     replyVotes db' tid p = replyVotes db tid p ∨
     (tid = params_threadId req ∧
      ∃ thread, threads db !! tid = Some thread ∧
        spec_locate (thread_replies thread) (params_replyId req) = Some p)).
Proof.
  simpl. rewrite voteReply_locate.
  destruct (negb _); [by auto|].
  destruct (threads db !! params_threadId req) as [thread|] eqn:Hthread; [|by auto].
  destruct (spec_locate _ _) as [p|] eqn:Hp; [|by auto].
  simpl. split_and!; [done | |].
  - intros tid. destruct (decide (tid = params_threadId req)) as [->|Hne].
    + by rewrite lookup_insert_eq, Hthread.
    + by rewrite lookup_insert_ne.
  - intros tid q. unfold replyVotes. simpl.
    destruct (decide (tid = params_threadId req)) as [->|Hne].
    + rewrite lookup_insert_eq, Hthread. simpl.
      rewrite node_at_update_at. case_decide as Hq.
      * subst q. right. eauto.
      * left. by rewrite option_fmap_id.
    + left. by rewrite lookup_insert_ne.
Qed.

(** C7, as claimed: a successful reply-level vote is answered with a net
    score and a user vote.  The answer of the upvote on [D] carries
    neither. *)
Lemma reply_vote_returns_no_tally : ¬ reply_vote_returns_tally.
Proof.
  intros H. destruct (H upvote_D sample_db) as (message & net & uv & E).
  - vm_compute. reflexivity.
  - vm_compute in E. discriminate E.
Qed.

(** C7, amended. A successful reply-level vote is answered with the
    message "Vote recorded successfully" alone. *)
Theorem reply_vote_returns_message req db :
  status (voteReply req db).2 = 200 →
  body (voteReply req db).2 = BMessage "Vote recorded successfully".
Proof.
  rewrite voteReply_locate.
  destruct (negb _); [done|].
  destruct (threads db !! params_threadId req) as [thread|]; [|done].
  by destruct (spec_locate _ _).
Qed.

Lemma reply_vote_returns_message_witness :
  body (voteReply upvote_D sample_db).2 = BMessage "Vote recorded successfully".
Proof.
  apply (reply_vote_returns_message upvote_D sample_db).
  vm_compute. reflexivity.
Defined.

(** ** Requests that are refused *)

(** C9. A well-typed vote whose thread id resolves to no thread is answered
    by 404 "Thread not found" on both routes, and a reply-level vote whose
    reply id is carried by no node of the thread's reply tree by 404 "Reply
    not found"; in both cases the collections stay as they were. *)
Theorem not_found_persists_nothing req db :
  validationResult req = [] →
  (threads db !! params_threadId req = None →
   voteThread req db = (db, mkResponse 404 (BMessage "Thread not found")) ∧
   voteReply req db = (db, mkResponse 404 (BMessage "Thread not found"))) ∧
  (∀ thread,
     threads db !! params_threadId req = Some thread →
     (∀ p x, node_at (thread_replies thread) p = Some x →
             reply_id x ≠ params_replyId req) →
     voteReply req db = (db, mkResponse 404 (BMessage "Reply not found"))).
Proof.
  intros Hvalid. split.
  - intros Hnone. unfold voteThread, voteReply. by rewrite Hvalid, Hnone.
  - intros thread Hthread Hmissing.
    rewrite voteReply_locate, Hvalid, Hthread. simpl.
    apply spec_locate_None in Hmissing. by rewrite Hmissing.
Qed.

Lemma not_found_persists_nothing_witness :
  voteThread upvote_nowhere sample_db =
    (sample_db, mkResponse 404 (BMessage "Thread not found")) ∧
  voteReply upvote_nowhere sample_db =
    (sample_db, mkResponse 404 (BMessage "Thread not found")) ∧
  voteReply upvote_missing sample_db =
    (sample_db, mkResponse 404 (BMessage "Reply not found")).
Proof.
  pose proof (not_found_persists_nothing upvote_nowhere sample_db eq_refl) as [H _].
  pose proof (not_found_persists_nothing upvote_missing sample_db eq_refl) as [_ H'].
  destruct (H eq_refl) as [H1 H2].
  split; [exact H1 | split; [exact H2 |]].
  apply (H' thread_T eq_refl).
  apply spec_locate_None. reflexivity.
Defined.



(** ** More on the vote ledger *)

Lemma voteCount_cons v votes :
  voteCount (v :: votes) = score (vote_type v) + voteCount votes.
Proof.
  unfold voteCount, score. rewrite !filter_cons.
  destruct (String.eqb_spec (vote_type v) "upvote") as [E|E].
  - rewrite decide_True, decide_False by (done || by rewrite E). simpl. lia.
  - rewrite (decide_False (P := vote_type v = "upvote")) by done.
    destruct (String.eqb_spec (vote_type v) "downvote") as [E'|E'].
    + rewrite decide_True by done. simpl. lia.
    + rewrite decide_False by done. lia.
Qed.

Lemma voteCount_app l1 l2 : voteCount (l1 ++ l2) = voteCount l1 + voteCount l2.
Proof.
  induction l1 as [|v l1 IH]; [done|].
  simpl. rewrite !voteCount_cons, IH. lia.
Qed.

Lemma score_bounds t : -1 <= score t <= 1.
Proof. unfold score. repeat destruct (String.eqb _ _); lia. Qed.

Lemma voteCount_bounds votes :
  - Z.of_nat (length votes) <= voteCount votes <= Z.of_nat (length votes).
Proof.
  induction votes as [|v votes IH]; [done|].
  rewrite voteCount_cons. pose proof (score_bounds (vote_type v)).
  simpl length. lia.
Qed.

Lemma userVoteOf_absent votes u : noEntry u votes → userVoteOf votes u = JUndefined.
Proof.
  intros H. unfold userVoteOf.
  apply noEntry_sameUser, find_none_Forall in H. by rewrite H.
Qed.

Lemma userVoteOf_present before entry after u :
  noEntry u before → vote_user entry = u →
  userVoteOf (before ++ entry :: after) u = JStr (vote_type entry).
Proof.
  intros Hb He. unfold userVoteOf. rewrite find_app.
  apply noEntry_sameUser, find_none_Forall in Hb. rewrite Hb. simpl.
  apply sameUser_true in He. by rewrite He.
Qed.

(** Under the invariant, nothing after the user's entry is the user's. *)
Lemma oneVotePerUser_rest before entry after u :
  oneVotePerUser (before ++ entry :: after) → noEntry u before →
  vote_user entry = u → noEntry u (before ++ after).
Proof.
  unfold oneVotePerUser. rewrite fmap_app, fmap_cons.
  intros Hnd Hb He. apply Forall_app. split; [done|].
  apply NoDup_app in Hnd as (_ & _ & Hnd). apply NoDup_cons in Hnd as [Hnotin _].
  apply noEntry_not_elem. by rewrite <- He.
Qed.

(** X1. A vote moves the net score by the weight of the new type, minus the
    weight of the user's former vote if there was one, the new type
    counting for nothing when it only cancels the former vote; the net
    score thus never moves by more than 2. *)
Theorem applyVote_score (votes : list Vote) (u t : string) :
  voteCount (applyVote votes u t) =
    voteCount votes +
    match userVoteOf votes u with
    | JStr s => (if String.eqb s t then 0 else score t) - score s
    | _ => score t
    end ∧
  -2 <= voteCount (applyVote votes u t) - voteCount votes <= 2.
Proof.
  assert (voteCount (applyVote votes u t) =
    voteCount votes +
    match userVoteOf votes u with
    | JStr s => (if String.eqb s t then 0 else score t) - score s
    | _ => score t
    end) as E.
  { destruct (votes_split u votes) as [H|(before & entry & after & -> & Hb & He)].
    - rewrite applyVote_absent, userVoteOf_absent, voteCount_app by done.
      rewrite voteCount_cons. unfold voteCount at 2. simpl. lia.
    - rewrite applyVote_present, userVoteOf_present by done.
      destruct (String.eqb (vote_type entry) t);
        rewrite !voteCount_app, ?voteCount_cons; simpl; lia. }
  split; [exact E|]. rewrite E.
  pose proof (score_bounds t).
  destruct (userVoteOf votes u) as [| |s]; [lia..|].
  pose proof (score_bounds s). destruct (String.eqb s t); lia.
Qed.

Example first_votes_score :
  voteCount (applyVote three_up_one_down "u9" "upvote") = 3 ∧
  voteCount (applyVote three_up_one_down "u9" "downvote") = 1 ∧
  voteCount (applyVote three_up_one_down "u3" "upvote") = 4 ∧
  voteCount (applyVote three_up_one_down "u3" "downvote") = 3.
Proof. repeat split; vm_compute; reflexivity. Qed.



(** ** More on thread-level votes *)

(** X3. On a thread whose vote set has one entry per user at most, the
    [userVote] of the answer is decided by the user's former vote: [null]
    without one, absent ([undefined]) when the request cancels it, and the
    requested type when the request replaces it; [voteCount] is the net
    score of the vote set after the update. *)
Theorem thread_vote_answer req db thread type :
  body_type req = Some type → isIn type ["upvote"; "downvote"] = true →
  threads db !! params_threadId req = Some thread →
  oneVotePerUser (thread_votes thread) →
  (voteThread req db).2 =
    mkResponse 200
      (BVote "Vote recorded successfully"
         (voteCount (applyVote (thread_votes thread) (req_user req) type))
         match userVoteOf (thread_votes thread) (req_user req) with
         | JStr former => if String.eqb former type then JUndefined else JStr type
         | _ => JNull
         end).
Proof.
  intros Htype Hin Hthread Hinv.
  rewrite (voteThread_found req db thread type) by done. simpl. do 2 f_equal.
  destruct (votes_split (req_user req) (thread_votes thread))
    as [H|(before & entry & after & E & Hb & He)].
  - rewrite (userVoteOf_absent (thread_votes thread)) by done.
    apply noEntry_findIndex in H. by rewrite H.
  - rewrite E in *. rewrite (userVoteOf_present before entry after) by done.
    rewrite findIndex_first; [| by apply noEntry_sameUser | by apply sameUser_true].
    destruct (Z.eqb_spec (Z.of_nat (length before)) (-1)); [lia|]. simpl.
    rewrite applyVote_present by done.
    destruct (String.eqb (vote_type entry) type).
    + apply userVoteOf_absent. by eapply oneVotePerUser_rest.
    + by rewrite (userVoteOf_present before (mkVote _ type) after) by done.
Qed.

Lemma thread_vote_answer_witness :
  (voteThread downvote_T (voteThread upvote_T sample_db).1).2 =
    mkResponse 200 (BVote "Vote recorded successfully" (-1) (JStr "downvote")).
Proof.
  rewrite (thread_vote_answer downvote_T (voteThread upvote_T sample_db).1
             (mkThread "author1" "Welcome" [mkVote "u1" "upvote"] [reply_A])
             "downvote" eq_refl eq_refl eq_refl).
  - vm_compute. reflexivity.
  - unfold oneVotePerUser. apply (bool_decide_unpack _). vm_compute. exact I.
Defined.

(** X4. After a thread-level vote the stored reputation of the thread's
    author lies between 0 and ten times the number of votes on the thread,
    and is a multiple of 10. *)
Theorem thread_vote_reputation_bounds req db thread type author :
  body_type req = Some type → isIn type ["upvote"; "downvote"] = true →
  threads db !! params_threadId req = Some thread →
  users db !! thread_author thread = Some author →
  ∃ thread' author',
    threads (voteThread req db).1 !! params_threadId req = Some thread' ∧
    users (voteThread req db).1 !! thread_author thread = Some author' ∧
    0 <= reputation author' <= 10 * Z.of_nat (length (thread_votes thread')) ∧
    (10 | reputation author').
Proof.
  intros Htype Hin Hthread Hauthor.
  rewrite (voteThread_found req db thread type) by done. simpl.
  eexists _, _. split; [apply lookup_insert_eq|].
  split; [by rewrite lookup_alter_eq, Hauthor|]. simpl.
  pose proof (voteCount_bounds (applyVote (thread_votes thread) (req_user req) type)).
  split; [lia|].
  destruct (Z.max_spec 0 (voteCount (applyVote (thread_votes thread) (req_user req) type) * 10))
    as [[_ ->]|[_ ->]].
  - by apply Z.divide_factor_r.
  - apply Z.divide_0_r.
Qed.

Lemma thread_vote_reputation_bounds_witness :
  ∃ thread' author',
    threads (voteThread upvote_T sample_db).1 !! "T" = Some thread' ∧
    users (voteThread upvote_T sample_db).1 !! "author1" = Some author' ∧
    0 <= reputation author' <= 10 * Z.of_nat (length (thread_votes thread')) ∧
    (10 | reputation author').
Proof.
  exact (thread_vote_reputation_bounds upvote_T sample_db thread_T "upvote"
           (mkUser "alice" 0) eq_refl eq_refl eq_refl eq_refl).
Defined.

(** X5. A thread-level vote changes no other thread, nor the author, title
    and replies of the thread it votes on, nor any user name, nor any user
    record other than that of the thread's author. *)
Theorem thread_vote_frame req db :
  let db' := (voteThread req db).1 in
  (∀ tid,
     threads db' !! tid = threads db !! tid ∨ tid = params_threadId req) ∧
  (∀ tid,
     (λ th, (thread_author th, thread_title th, thread_replies th)) <$> threads db' !! tid =
     (λ th, (thread_author th, thread_title th, thread_replies th)) <$> threads db !! tid) ∧
  (∀ uid, username <$> users db' !! uid = username <$> users db !! uid) ∧
  (∀ uid,
     users db' !! uid = users db !! uid ∨
     ∃ thread, threads db !! params_threadId req = Some thread ∧
               uid = thread_author thread).
Proof.
  simpl. unfold voteThread.
  destruct (negb _); [by auto|].
  destruct (threads db !! params_threadId req) as [thread|] eqn:Hthread; [|by auto].
  simpl. split_and!.
  - intros tid. destruct (decide (tid = params_threadId req)) as [->|Hne]; [by right|].
    left. by rewrite lookup_insert_ne.
  - intros tid. destruct (decide (tid = params_threadId req)) as [->|Hne].
    + by rewrite lookup_insert_eq, Hthread.
    + by rewrite lookup_insert_ne.
  - intros uid. destruct (decide (uid = thread_author thread)) as [->|Hne].
    + rewrite lookup_alter_eq. by destruct (users db !! thread_author thread).
    + by rewrite lookup_alter_ne.
  - intros uid. destruct (decide (uid = thread_author thread)) as [->|Hne].
    + right. eauto.
    + left. by rewrite lookup_alter_ne.
Qed.

(** X6. The stored reputation reflects the thread voted on last only: after
    a vote on one thread and then a vote on another, the reputation of the
    second thread's author is derived from the second thread's votes alone,
    whatever the first thread's score and the former reputation were. *)
Theorem reputation_follows_last_thread reqA reqB db threadA threadB typeA typeB author :
  body_type reqA = Some typeA → isIn typeA ["upvote"; "downvote"] = true →
  body_type reqB = Some typeB → isIn typeB ["upvote"; "downvote"] = true →
  threads db !! params_threadId reqA = Some threadA →
  threads db !! params_threadId reqB = Some threadB →
  params_threadId reqA ≠ params_threadId reqB →
  users db !! thread_author threadB = Some author →
  reputation <$>
    users (handleVotes [ThreadVote reqA; ThreadVote reqB] db) !! thread_author threadB =
  Some (reputationOf (applyVote (thread_votes threadB) (req_user reqB) typeB)).
Proof.
  intros HtA HinA HtB HinB HA HB Hne Hauthor. simpl.
  rewrite (voteThread_found reqA db threadA typeA) by done. simpl.
  erewrite (voteThread_found reqB _ threadB typeB);
    [|done..|by simpl; rewrite lookup_insert_ne].
  simpl. rewrite lookup_alter_eq.
  destruct (decide (thread_author threadA = thread_author threadB)) as [E|E].
  - by rewrite E, lookup_alter_eq, Hauthor.
  - by rewrite lookup_alter_ne, Hauthor.
Qed.

Lemma reputation_follows_last_thread_witness :
  reputation <$>
    users (handleVotes [ThreadVote upvote_S; ThreadVote downvote_T] two_threads_db)
      !! "author1" = Some 0.
Proof.
  refine (reputation_follows_last_thread upvote_S downvote_T two_threads_db
            thread_S thread_T "upvote" "downvote" (mkUser "alice" 20)
            eq_refl eq_refl eq_refl eq_refl eq_refl eq_refl _ eq_refl).
  discriminate.
Defined.

(** ** Sequences of vote requests *)

Lemma voteThread_dom req db :
  dom (threads (voteThread req db).1) = dom (threads db) ∧
  dom (users (voteThread req db).1) = dom (users db).
Proof.
  unfold voteThread. destruct (negb _); [done|].
  destruct (threads db !! params_threadId req) as [thread|] eqn:Hthread; [|done].
  simpl. split; [by apply dom_insert_lookup_L | apply dom_alter_L].
Qed.

Lemma voteReply_dom req db :
  dom (threads (voteReply req db).1) = dom (threads db) ∧
  dom (users (voteReply req db).1) = dom (users db).
Proof.
  rewrite voteReply_locate. destruct (negb _); [done|].
  destruct (threads db !! params_threadId req) as [thread|] eqn:Hthread; [|done].
  destruct (spec_locate _ _); [|done].
  simpl. split; [by apply dom_insert_lookup_L | done].
Qed.

(** X7. Votes create and delete nothing: after any sequence of vote
    requests the collections hold the threads and the users with the same
    identifiers as before. *)
Theorem votes_keep_documents (rs : list VoteRequest) (db : Db) :
  dom (threads (handleVotes rs db)) = dom (threads db) ∧
  dom (users (handleVotes rs db)) = dom (users db).
Proof.
  revert db. induction rs as [|r rs IH]; intros db; [done|].
  simpl. destruct (IH (handleVote r db).1) as [-> ->].
  destruct r; [apply voteThread_dom | apply voteReply_dom].
Qed.









(** ** More on reply-level votes *)

Lemma node_in_update_in_label f p q r :
  reply_label <$> node_in q (update_in f p r) = reply_label <$> node_in q r.
Proof.
  revert q r. induction p as [|j p IH]; intros q r.
  - by destruct q.
  - destruct q as [|i q]; simpl; [done|].
    destruct (decide (i = j)) as [->|Hij].
    + rewrite list_lookup_alter_eq.
      destruct (reply_replies r !! j) as [c|]; simpl; [apply IH | done].
    + by rewrite list_lookup_alter_ne.
Qed.

Lemma node_at_update_at_label f p q replies :
  reply_label <$> node_at (update_at f p replies) q = reply_label <$> node_at replies q.
Proof.
  destruct p as [|j p]; [done|].
  destruct q as [|i q]; simpl; [done|].
  destruct (decide (i = j)) as [->|Hij].
  - rewrite list_lookup_alter_eq.
    destruct (replies !! j) as [c|]; simpl; [apply node_in_update_in_label | done].
  - by rewrite list_lookup_alter_ne.
Qed.

Lemma spec_locate_node replies rid p :
  spec_locate replies rid = Some p →
  ∃ x, node_at replies p = Some x ∧ reply_id x = rid.
Proof.
  intros (earlier & x & later & E & Hid & _)%spec_locate_Some.
  exists x. split; [|done].
  apply preorder_list_node_at. rewrite E. apply elem_of_app. right. by left.
Qed.

(** X9. A reply-level vote adds, removes, moves and edits no reply: at every
    path of every thread the reply found there has the id, author and
    content it had. *)
Theorem reply_vote_keeps_replies req db tid p :
  replyLabel (voteReply req db).1 tid p = replyLabel db tid p.
Proof.
  rewrite voteReply_locate. destruct (negb _); [done|].
  destruct (threads db !! params_threadId req) as [thread|] eqn:Hthread; [|done].
  destruct (spec_locate _ _) as [q|]; [|done].
  unfold replyLabel. simpl.
  destruct (decide (tid = params_threadId req)) as [->|Hne].
  - rewrite lookup_insert_eq, Hthread. simpl. apply node_at_update_at_label.
  - by rewrite lookup_insert_ne.
Qed.

(** X10. A well-typed reply-level vote whose thread exists and whose reply
    id is found stores, at the first node in pre-order with that id, the
    vote set of that node updated for the requesting user. *)
Theorem reply_vote_lands req db thread type p :
  body_type req = Some type → isIn type ["upvote"; "downvote"] = true →
  threads db !! params_threadId req = Some thread →
  spec_locate (thread_replies thread) (params_replyId req) = Some p →
  ∃ reply,
    node_at (thread_replies thread) p = Some reply ∧
    reply_id reply = params_replyId req ∧
    replyVotes (voteReply req db).1 (params_threadId req) p =
      Some (applyVote (reply_votes reply) (req_user req) type).
Proof.
  intros Htype Hin Hthread Hp.
  destruct (spec_locate_node _ _ _ Hp) as (x & Hx & Hid).
  exists x. split_and!; [done..|].
  rewrite voteReply_locate, (validationResult_ok req type), Hthread, Hp, Htype by done.
  unfold replyVotes. simpl. rewrite lookup_insert_eq. simpl.
  by rewrite node_at_update_at, decide_True, Hx.
Qed.

Lemma reply_vote_lands_witness :
  replyVotes (voteReply downvote_B sample_db).1 "T" [0; 0]%nat = Some [].
Proof.
  destruct (reply_vote_lands downvote_B sample_db thread_T "downvote" [0; 0]%nat
              eq_refl eq_refl eq_refl eq_refl) as (reply & Hnode & _ & E).
  injection Hnode as <-. exact E.
Defined.

(** X11. The search reports success exactly when some node of the tree, at
    any depth, carries the requested id; and the reply route answers 200
    exactly for a well-typed request whose thread exists and has such a
    node. *)
Theorem reply_vote_succeeds_iff :
  (∀ replies rid u t,
     (findAndVoteReply replies rid u t).1 = true ↔
     ∃ p x, node_at replies p = Some x ∧ reply_id x = rid) ∧
  (∀ req db,
     status (voteReply req db).2 = 200 ↔
     validationResult req = [] ∧
     ∃ thread p x,
       threads db !! params_threadId req = Some thread ∧
       node_at (thread_replies thread) p = Some x ∧
       reply_id x = params_replyId req).
Proof.
  assert (∀ replies rid,
    is_Some (spec_locate replies rid) ↔
    ∃ p x, node_at replies p = Some x ∧ reply_id x = rid) as Hsome.
  { intros replies rid. split.
    - intros [p Hp]. exists p. by apply spec_locate_node.
    - intros (p & x & Hx & Hid).
      destruct (spec_locate replies rid) eqn:E; [by eexists|].
      by eapply spec_locate_None in E. }
  split.
  - intros replies rid u t. rewrite <- Hsome, findAndVoteReply_locate.
    destruct (spec_locate replies rid); simpl.
    + split; [by eexists | done].
    + split; [done | by intros [? ?]].
  - intros req db. rewrite voteReply_locate.
    destruct (validationResult req) as [|e errors]; simpl.
    + destruct (threads db !! params_threadId req) as [thread|] eqn:Hthread.
      * pose proof (Hsome (thread_replies thread) (params_replyId req)) as H.
        destruct (spec_locate _ _) as [p|]; simpl.
        -- split; [|done]. intros _. split; [done|].
           destruct (proj1 H) as (q & x & Hx & Hid); [by eexists|]. eauto 6.
        -- split; [done|]. intros [_ (thread' & q & x & [= <-] & Hx & Hid)].
           destruct (proj2 H) as [? ?]; [eauto|done].
      * simpl. split; [done|]. by intros [_ (thread' & q & x & [=] & _)].
    + split; [done | by intros [[=] _]].
Qed.

Lemma list_alter_fixed {A} (g : A → A) (l : list A) i x :
  l !! i = Some x → g x = x → alter g i l = l.
Proof.
  intros Hi Hx. rewrite <- (list_alter_id id l i) at 2 by done.
  apply list_alter_ext; [|done]. intros y Hy.
  rewrite Hi in Hy. injection Hy as <-. exact Hx.
Qed.

Lemma update_in_twice f g p r :
  update_in f p (update_in g p r) = update_in (f ∘ g) p r.
Proof.
  revert r. induction p as [|j p IH]; intros r; simpl; [done|].
  f_equal. rewrite list_alter_alter_eq. apply list_alter_ext; [|done].
  intros c _. apply IH.
Qed.

Lemma update_in_fixed h p r x :
  node_in p r = Some x → h (reply_votes x) = reply_votes x → update_in h p r = r.
Proof.
  revert r. induction p as [|j p IH]; intros r; simpl.
  - intros [= <-] ->. by destruct r.
  - destruct (reply_replies r !! j) as [c|] eqn:Hc; [|done].
    intros Hx Hh. rewrite (list_alter_fixed _ _ _ c) by eauto. by destruct r.
Qed.

Lemma update_at_twice_fixed f p replies x :
  node_at replies p = Some x → f (f (reply_votes x)) = reply_votes x →
  update_at f p (update_at f p replies) = replies.
Proof.
  destruct p as [|j p]; simpl; [done|].
  destruct (replies !! j) as [c|] eqn:Hc; [|done].
  intros Hx Hf. rewrite list_alter_alter_eq.
  apply (list_alter_fixed _ _ _ c); [done|].
  simpl. rewrite update_in_twice. by eapply update_in_fixed.
Qed.

Lemma proj_prod_map (h : path → path) (l : list (path * Reply)) :
  (λ n, (n.1, reply_id n.2)) <$> (prod_map h id <$> l) =
  prod_map h id <$> ((λ n, (n.1, reply_id n.2)) <$> l).
Proof.
  rewrite <- !list_fmap_compose. apply list_fmap_ext. by intros _ [q y] _.
Qed.

Lemma preorder_list_alter g j replies :
  (∀ c, (λ n, (n.1, reply_id n.2)) <$> preorder (g c) =
        (λ n, (n.1, reply_id n.2)) <$> preorder c) →
  (λ n, (n.1, reply_id n.2)) <$> preorder_list (alter g j replies) =
  (λ n, (n.1, reply_id n.2)) <$> preorder_list replies.
Proof.
  intros Hg. revert j. induction replies as [|c cs IH]; intros j; [done|].
  destruct j as [|j]; simpl; rewrite !fmap_app, !proj_prod_map.
  - by rewrite Hg.
  - do 2 f_equal. apply (IH j).
Qed.

Lemma preorder_update_in f p r :
  (λ n, (n.1, reply_id n.2)) <$> preorder (update_in f p r) =
  (λ n, (n.1, reply_id n.2)) <$> preorder r.
Proof.
  revert r. induction p as [|j p IH]; intros r; rewrite !preorder_unfold; simpl.
  - done.
  - f_equal. by apply preorder_list_alter.
Qed.

Lemma find_hasId_proj rid (l l' : list (path * Reply)) :
  (λ n, (n.1, reply_id n.2)) <$> l = (λ n, (n.1, reply_id n.2)) <$> l' →
  fst <$> List.find (hasId rid) l = fst <$> List.find (hasId rid) l'.
Proof.
  revert l'. induction l as [|[q y] l IH]; intros [|[q' y'] l']; simpl; try done.
  intros [= -> Hy Hl]. unfold hasId at 1 3. simpl. rewrite Hy.
  destruct (String.eqb _ _); [done | by apply IH].
Qed.

Lemma spec_locate_update_at f p replies rid :
  spec_locate (update_at f p replies) rid = spec_locate replies rid.
Proof.
  unfold spec_locate. apply find_hasId_proj.
  destruct p as [|j p]; [done|]. simpl.
  apply preorder_list_alter. intros c. apply preorder_update_in.
Qed.

(** X12. Toggle round trip along the reply route: when the requesting user
    has no entry at the reply the request locates, the same request served
    twice in a row leaves both collections exactly as they were. *)
Theorem reply_vote_twice req db thread type p reply :
  body_type req = Some type → isIn type ["upvote"; "downvote"] = true →
  threads db !! params_threadId req = Some thread →
  spec_locate (thread_replies thread) (params_replyId req) = Some p →
  node_at (thread_replies thread) p = Some reply →
  noEntry (req_user req) (reply_votes reply) →
  handleVotes [ReplyVote req; ReplyVote req] db = db.
Proof.
  intros Htype Hin Hthread Hp Hnode Hnone. simpl.
  rewrite (voteReply_locate req db).
  rewrite (validationResult_ok req type), Hthread, Hp, Htype by done. simpl.
  rewrite voteReply_locate.
  rewrite (validationResult_ok req type), Htype by done. simpl.
  rewrite lookup_insert_eq. simpl.
  rewrite spec_locate_update_at, Hp. simpl. unfold saveThread. simpl.
  rewrite insert_insert_eq.
  rewrite (update_at_twice_fixed _ _ _ reply)
    by (done || by apply applyVote_twice).
  destruct db as [ths us], thread. simpl in *. f_equal. by apply insert_id.
Qed.

Lemma reply_vote_twice_witness :
  handleVotes [ReplyVote upvote_D; ReplyVote upvote_D] sample_db = sample_db.
Proof.
  apply (reply_vote_twice upvote_D sample_db thread_T "upvote" [0; 1; 0]%nat reply_D);
    try reflexivity.
  constructor.
Defined.

(** X13. Toggle round trip along the thread route: when the requesting user
    has no entry on the thread, the same request served twice in a row
    restores the thread collection; the author's reputation is then the one
    derived from the restored vote set, whatever was stored before. *)
Theorem thread_vote_twice req db thread type :
  body_type req = Some type → isIn type ["upvote"; "downvote"] = true →
  threads db !! params_threadId req = Some thread →
  noEntry (req_user req) (thread_votes thread) →
  let db' := handleVotes [ThreadVote req; ThreadVote req] db in
  threads db' = threads db ∧
  users db' =
    alter (λ u, mkUser (username u) (reputationOf (thread_votes thread)))
          (thread_author thread) (users db).
Proof.
  intros Htype Hin Hthread Hnone. simpl.
  destruct (voteThread_twice req db thread type Htype Hin Hthread Hnone) as [Hths _].
  split; [exact Hths|].
  destruct (applyVote_twice _ _ type Hnone) as (Honce & Htwice).
  rewrite (voteThread_found req db thread type) by done. simpl.
  erewrite (voteThread_found _ _ _ type); [|done..|by apply lookup_insert_eq].
  simpl. rewrite Htwice.
  apply map_eq. intros uid.
  destruct (decide (uid = thread_author thread)) as [->|Hne].
  - rewrite !lookup_alter_eq. by destruct (users db !! thread_author thread).
  - by rewrite !lookup_alter_ne.
Qed.

Lemma thread_vote_twice_witness :
  threads (handleVotes [ThreadVote upvote_S; ThreadVote upvote_S] two_threads_db) =
    threads two_threads_db.
Proof.
  refine (proj1 (thread_vote_twice upvote_S two_threads_db thread_S "upvote"
                   eq_refl eq_refl eq_refl _)).
  unfold noEntry. apply (bool_decide_unpack _). vm_compute. exact I.
Defined.

(** ** Deleting a thread *)

(** X14. A delete request removes a thread only for its author or an admin:
    it is answered 200 exactly when the thread exists and the requester is
    its author or has the role admin, and every request answered otherwise
    (403 or 404) leaves the collections as they were. *)
Theorem delete_needs_author_or_admin req db :
  (status (deleteThread req db).2 = 200 ↔
   ∃ thread, threads db !! params_id req = Some thread ∧
     (thread_author thread = user_id req ∨ user_role req = Some "admin")) ∧
  (status (deleteThread req db).2 ≠ 200 → (deleteThread req db).1 = db).
Proof.
  unfold deleteThread.
  destruct (threads db !! params_id req) as [thread|] eqn:Hthread; simpl.
  - destruct (String.eqb_spec (thread_author thread) (user_id req)) as [Ha|Ha]; simpl.
    + split; [|done]. split; [eauto | done].
    + case_bool_decide as Hr; simpl.
      * split; [|done]. split; [eauto | done].
      * split; [|done]. split; [done|].
        intros (thread' & [= <-] & [?|?]); done.
  - split; [|done]. split; [done | by intros (? & [=] & _)].
Qed.

Lemma delete_needs_author_or_admin_witness :
  (deleteThread delete_T_by_other sample_db).1 = sample_db.
Proof.
  apply (proj2 (delete_needs_author_or_admin delete_T_by_other sample_db)).
  vm_compute. discriminate.
Defined.

Example delete_requests :
  status (deleteThread delete_T_by_author sample_db).2 = 200 ∧
  status (deleteThread delete_T_by_admin sample_db).2 = 200 ∧
  deleteThread delete_T_by_other sample_db =
    (sample_db, mkResponse 403 (BMessage "Not authorized")).
Proof. repeat split; vm_compute; reflexivity. Qed.

(** X15. A delete by the author or an admin removes the thread and nothing
    else: the other threads and all user records, the author's reputation
    among them, stay as they were. *)
Theorem delete_removes_thread_only req db thread :
  threads db !! params_id req = Some thread →
  thread_author thread = user_id req ∨ user_role req = Some "admin" →
  let db' := (deleteThread req db).1 in
  (deleteThread req db).2 = mkResponse 200 (BMessage "Thread deleted successfully") ∧
  threads db' !! params_id req = None ∧
  (∀ tid, tid ≠ params_id req → threads db' !! tid = threads db !! tid) ∧
  users db' = users db.
Proof.
  intros Hthread Hauth. simpl. unfold deleteThread. rewrite Hthread.
  assert (negb (String.eqb (thread_author thread) (user_id req)) &&
          negb (bool_decide (user_role req = Some "admin")) = false) as ->.
  { destruct Hauth as [Ha|Hr].
    - apply String.eqb_eq in Ha. by rewrite Ha.
    - rewrite (bool_decide_eq_true_2 _ Hr). apply andb_false_r. }
  simpl. split_and!; [done | apply lookup_delete_eq | | done].
  intros tid Hne. by apply lookup_delete_ne.
Qed.

Lemma delete_removes_thread_only_witness :
  threads (deleteThread delete_T_by_admin two_threads_db).1 !! "T" = None ∧
  threads (deleteThread delete_T_by_admin two_threads_db).1 !! "S" = Some thread_S ∧
  users (deleteThread delete_T_by_admin two_threads_db).1 = users two_threads_db.
Proof.
  destruct (delete_removes_thread_only delete_T_by_admin two_threads_db thread_T
              eq_refl (or_intror eq_refl)) as (_ & Hnone & Hother & Husers).
  split; [exact Hnone|]. split; [|exact Husers].
  rewrite (Hother "S"); [reflexivity | discriminate].
Defined.

(** X16. Once a thread is deleted, every well-typed vote on it or on one of
    its replies, and every further delete of it, is answered 404 "Thread
    not found" and changes nothing. *)
Theorem deleted_thread_is_gone req db thread vote again :
  threads db !! params_id req = Some thread →
  thread_author thread = user_id req ∨ user_role req = Some "admin" →
  validationResult vote = [] →
  params_threadId vote = params_id req →
  params_id again = params_id req →
  let db' := (deleteThread req db).1 in
  voteThread vote db' = (db', mkResponse 404 (BMessage "Thread not found")) ∧
  voteReply vote db' = (db', mkResponse 404 (BMessage "Thread not found")) ∧
  deleteThread again db' = (db', mkResponse 404 (BMessage "Thread not found")).
Proof.
  intros Hthread Hauth Hvalid Hvote Hagain. simpl.
  assert (threads (deleteThread req db).1 !! params_id req = None) as Hgone.
  { unfold deleteThread. rewrite Hthread.
    destruct (_ && _) eqn:E; simpl; [|apply lookup_delete_eq].
    apply andb_true_iff in E as [Ha Hr].
    apply negb_true_iff in Ha, Hr.
    apply String.eqb_neq in Ha. apply bool_decide_eq_false in Hr.
    by destruct Hauth. }
  unfold voteThread, voteReply. rewrite Hvalid, Hvote, Hgone. simpl.
  split_and!; [done..|].
  unfold deleteThread at 1. by rewrite Hagain, Hgone.
Qed.

Lemma deleted_thread_is_gone_witness :
  voteThread upvote_T (deleteThread delete_T_by_author sample_db).1 =
    ((deleteThread delete_T_by_author sample_db).1,
     mkResponse 404 (BMessage "Thread not found")).
Proof.
  exact (proj1 (deleted_thread_is_gone delete_T_by_author sample_db thread_T
                  upvote_T delete_T_by_admin eq_refl (or_introl eq_refl)
                  eq_refl eq_refl eq_refl)).
Defined.

(** ** Pagination *)

Lemma ceilDiv_bounds total limit :
  0 < limit →
  (ceilDiv total limit - 1) * limit < total <= ceilDiv total limit * limit.
Proof.
  intros Hlimit. unfold ceilDiv.
  pose proof (Z.div_mod (- total) limit) as Hdiv.
  pose proof (Z.mod_pos_bound (- total) limit Hlimit) as Hmod.
  nia.
Qed.

Lemma parseIntOr_nonzero n fallback : n ≠ 0 → parseIntOr (Some n) fallback = n.
Proof.
  intros Hn. unfold parseIntOr. by destruct (Z.eqb_spec n 0).
Qed.

(** Cutting a list into consecutive slices of [n] elements and joining the
    slices gives the list back, as soon as the slices reach its end. *)
Lemma slices_concat {A} (l : list A) (n m : nat) :
  (length l <= m * n)%nat →
  concat ((λ k, take n (drop (k * n) l)) <$> seq 0 m) = l.
Proof.
  revert l. induction m as [|m IH]; intros l Hlen; simpl.
  - destruct l; [done | simpl in Hlen; lia].
  - rewrite drop_0, <- fmap_S_seq, <- list_fmap_compose.
    transitivity (take n l ++ drop n l); [|apply take_drop]. f_equal.
    etransitivity; [|apply (IH (drop n l)); rewrite length_drop; lia].
    f_equal. apply list_fmap_ext. intros _ k _. simpl.
    by rewrite drop_drop.
Qed.

Lemma paginate_slice {A} (k : nat) limit fallback (found : list A) :
  0 < limit →
  (paginate (Some (Z.of_nat k + 1)) (Some limit) fallback found).1 =
    take (Z.to_nat limit) (drop (k * Z.to_nat limit) found).
Proof.
  intros Hlimit. unfold paginate. cbn [fst].
  rewrite !parseIntOr_nonzero by lia. do 2 f_equal.
  replace (Z.of_nat k + 1 - 1) with (Z.of_nat k) by lia.
  rewrite Z2Nat.inj_mul by lia. by rewrite Nat2Z.id.
Qed.

(** X17. With a limit of at least 1, the reported number of pages is the
    least number of pages that holds all results, and the pages 1 to that
    number, one after the other, are exactly the results: no result is
    skipped and none is repeated. *)
Theorem pages_cover_results {A} (found : list A) (page : option Z) (limit fallback : Z) :
  1 <= limit →
  let pages := pg_pages (paginate page (Some limit) fallback found).2 in
  (pages - 1) * limit < Z.of_nat (length found) <= pages * limit ∧
  concat ((λ k, (paginate (Some (Z.of_nat k + 1)) (Some limit) fallback found).1)
            <$> seq 0 (Z.to_nat pages)) = found.
Proof.
  intros Hlimit. unfold paginate at 1. cbn [snd pg_pages].
  rewrite parseIntOr_nonzero by lia.
  pose proof (ceilDiv_bounds (Z.of_nat (length found)) limit) as Hb.
  specialize (Hb ltac:(lia)). split; [exact Hb|].
  erewrite list_fmap_ext; [|intros _ k _; apply paginate_slice; lia].
  apply slices_concat. nia.
Qed.

Lemma pages_cover_results_witness :
  pg_pages (paginate (Some 2) (Some 2) 10 five_down).2 = 3 ∧
  (paginate (Some 1) (Some 2) 10 five_down).1 ++
  (paginate (Some 2) (Some 2) 10 five_down).1 ++
  (paginate (Some 3) (Some 2) 10 five_down).1 = five_down.
Proof.
  split; [reflexivity|].
  pose proof (pages_cover_results five_down (Some 2) 2 10 ltac:(lia)) as [_ H].
  exact H.
Defined.

(** X18. With a page and a limit of at least 1, a page never holds more
    than [limit] results, holds exactly [limit] of them when it is not the
    last page, and is empty beyond the last page. *)
Theorem page_sizes {A} (found : list A) (page limit fallback : Z) :
  1 <= page → 1 <= limit →
  let answer := paginate (Some page) (Some limit) fallback found in
  let pages := pg_pages answer.2 in
  Z.of_nat (length answer.1) <= limit ∧
  (page < pages → Z.of_nat (length answer.1) = limit) ∧
  (pages < page → answer.1 = []).
Proof.
  intros Hpage Hlimit. unfold paginate. cbn [fst snd pg_pages].
  rewrite !parseIntOr_nonzero by lia.
  pose proof (ceilDiv_bounds (Z.of_nat (length found)) limit) as Hb.
  specialize (Hb ltac:(lia)). split_and!.
  - rewrite length_take. lia.
  - intros Hlt. rewrite length_take, length_drop. nia.
  - intros Hlt. rewrite drop_ge; [apply take_nil | nia].
Qed.

Lemma page_sizes_witness :
  Z.of_nat (length (paginate (Some 3) (Some 2) 10 five_down).1) <= 2 ∧
  (paginate (Some 4) (Some 2) 10 five_down).1 = [].
Proof.
  split.
  - exact (proj1 (page_sizes five_down 3 2 10 ltac:(lia) ltac:(lia))).
  - apply (page_sizes five_down 4 2 10); [lia | lia | reflexivity].
Defined.

(** ** The stored vote of the requesting user *)

(** X19. In a vote set with one entry per user at most, the vote found for
    the requesting user after the update is the requested type, unless the
    request cancelled a former vote of that same type, in which case none
    is found; a first vote in particular is stored and found. *)
Theorem applyVote_stored_vote (votes : list Vote) (u t : string) :
  oneVotePerUser votes →
  userVoteOf (applyVote votes u t) u =
    match userVoteOf votes u with
    | JStr former => if String.eqb former t then JUndefined else JStr t
    | _ => JStr t
    end.
Proof.
  intros Hinv.
  destruct (votes_split u votes) as [H|(before & entry & after & -> & Hb & He)].
  - rewrite applyVote_absent, (userVoteOf_absent votes) by done.
    by rewrite (userVoteOf_present votes (mkVote u t) []).
  - rewrite applyVote_present, (userVoteOf_present before entry after) by done.
    destruct (String.eqb (vote_type entry) t).
    + apply userVoteOf_absent. by eapply oneVotePerUser_rest.
    + by rewrite (userVoteOf_present before (mkVote _ t) after).
Qed.

Lemma applyVote_stored_vote_witness :
  userVoteOf (applyVote three_up_one_down "u9" "upvote") "u9" = JStr "upvote" ∧
  userVoteOf (applyVote three_up_one_down "u3" "downvote") "u3" = JUndefined.
Proof.
  assert (oneVotePerUser three_up_one_down) as H
    by (unfold oneVotePerUser; apply (bool_decide_unpack _); vm_compute; exact I).
  split.
  - exact (applyVote_stored_vote three_up_one_down "u9" "upvote" H).
  - exact (applyVote_stored_vote three_up_one_down "u3" "downvote" H).
Defined.
